(** * Draft lottery core of dynasty-football-draft-lottery

    Shallow embedding of the lottery functions of [src/lib/database.ts]
    ([getValidPositionRange], [validateDraftResults],
    [weightedRandomSelection], [runLotteryRound], [runCompleteLottery]).

    Modelling choices:
    - JS numbers that hold positions, counts and movements are integers [Z];
      percentages and weights are exact rationals [Q] (an idealisation of
      IEEE doubles; where JS would divide by zero and get [NaN], the walk over
      the distribution falls through to its fallback, see
      [weightedRandomSelection]).
    - A thrown [Error] is [Throw msg] of the [result] monad.
    - [Math.random] is an oracle: a record [Rng] gives, for each attempt of
      [runLotteryRound], the keys that drive the random shuffle and the
      stream of draws consumed by [weightedRandomSelection].  The shuffle
      [[...teams].sort(() => Math.random() - 0.5)] returns some permutation
      of the teams; it is modelled as a stable sort on oracle keys, which
      reaches every permutation. *)

From Stdlib Require Import ZArith QArith Lia Lqa.
From stdpp Require Import base list list_numbers sorting strings pretty.

Open Scope Z_scope.

(** ** Data model ([src/types/index.ts]) *)

(** [logoUrl], [logoType] of [Team] and [pickDelaySeconds], [currentYear],
    [initialOrder] of [DraftConfig] are not read by the lottery functions
    and are left out. *)
Record Team := mkTeam { id : string; name : string }.

Record WeightedOdds := mkOdds { position : Z; percentage : Q }.

Record DraftConfig := mkConfig {
  numberOfTeams : Z;
  numberOfRounds : Z;
  teams : list Team;
  weightedSystem : list WeightedOdds
}.

Record DraftPick := mkPick {
  round : Z;
  pickNumber : Z;
  teamId : string;
  originalPosition : Z;
  movement : Z
}.

(** ** Errors *)

Inductive result (A : Type) : Type :=
| Ok (a : A)
| Throw (msg : string).
Arguments Ok {A} a.
Arguments Throw {A} msg.

Global Instance result_ret : MRet result := fun A a => Ok a.
Global Instance result_bind : MBind result := fun A B f m =>
  match m with Ok a => f a | Throw e => Throw e end.

Definition is_ok {A} (m : result A) : bool :=
  match m with Ok _ => true | Throw _ => false end.

(** ** [getValidPositionRange] *)

Definition MAX_MOVEMENT : Z := 2.

Record Range := mkRange { min : Z; max : Z }.

Definition getValidPositionRange (originalPosition totalTeams : Z) : Range :=
  {| min := Z.max 1 (originalPosition - MAX_MOVEMENT);
     max := Z.min totalTeams (originalPosition + MAX_MOVEMENT) |}.

(** [pos >= validRange.min && pos <= validRange.max] *)
Definition in_range (r : Range) (pos : Z) : bool :=
  (min r <=? pos) && (pos <=? max r).

(** ** [validateDraftResults] *)

Record Validation := mkValidation { valid : bool; errors : list string }.

Definition validateDraftResults (picks : list DraftPick) : Validation :=
  let errs :=
    foldr (fun pick acc =>
      let mv := Z.abs (movement pick) in
      if MAX_MOVEMENT <? mv then
        ("Team at original position " +:+ pretty (originalPosition pick) +:+
         " moved " +:+ pretty mv +:+ " spots (max allowed: " +:+
         pretty MAX_MOVEMENT +:+ ")") :: acc
      else acc) [] picks in
  {| valid := bool_decide (errs = []); errors := errs |}.

(** ** [weightedRandomSelection] *)

(** Weight of candidate [pos] for a team whose odds entry has percentage
    [pct]: [weight *= 1 + movement * 0.2] when moving up,
    [weight *= 1 - Math.abs(movement) * 0.2] when moving down. *)
Definition candidate_weight (pct : Q) (originalPosition pos : Z) : Q :=
  let mv := originalPosition - pos in
  if 0 <? mv then (pct * (1 + inject_Z mv * (1 # 5)))%Q
  else if mv <? 0 then (pct * (1 - inject_Z (Z.abs mv) * (1 # 5)))%Q
  else pct.

(** The loop [for (const prob of normalizedProbs)] with its running
    [cumulative]; [None] when the walk ends unsatisfied. *)
Fixpoint walk (random cumulative : Q) (probs : list (Z * Q)) : option Z :=
  match probs with
  | [] => None
  | (pos, p) :: rest =>
      let c := (cumulative + p)%Q in
      if Qle_bool random c then Some pos else walk random c rest
  end.

(** [rand i] is the [i]-th value of [Math.random()]; the result pairs the
    selected position with the index of the next unused draw. *)
Definition weightedRandomSelection (availablePositions : list Z)
    (weightedSystem : list WeightedOdds) (originalPosition : Z)
    (rand : nat -> Q) (i : nat) : result (Z * nat) :=
  let validRange :=
    getValidPositionRange originalPosition (Z.of_nat (length weightedSystem)) in
  let validPositions := List.filter (in_range validRange) availablePositions in
  match validPositions with
  | [] => Throw ("No valid positions available for team at original position "
                 +:+ pretty originalPosition)
  | [p] => Ok (p, i)
  | p0 :: _ =>
      match List.find (fun odds => position odds =? originalPosition)
              weightedSystem with
      | None => Throw ("No weighted odds found for position " +:+
                       pretty originalPosition)
      | Some teamOdds =>
          let probabilities :=
            map (fun pos =>
                   (pos, candidate_weight (percentage teamOdds) originalPosition pos))
                validPositions in
          let totalWeight :=
            fold_left (fun sum p => (sum + p.2)%Q) probabilities 0%Q in
          let normalizedProbs :=
            map (fun p => (p.1, (p.2 / totalWeight)%Q)) probabilities in
          let random := rand i in
          match walk random 0 normalizedProbs with
          | Some pos => Ok (pos, S i)
          | None => Ok (p0, S i)
          end
      end
  end.

(** ** Sorting

    [Array.prototype.sort] is stable; [sort_by le] is a stable insertion sort
    for the comparator whose "not greater" test is [le]. *)

Fixpoint insert_by {A} (le : A -> A -> bool) (x : A) (l : list A) : list A :=
  match l with
  | [] => [x]
  | y :: l' => if le x y then x :: y :: l' else y :: insert_by le x l'
  end.

Fixpoint sort_by {A} (le : A -> A -> bool) (l : list A) : list A :=
  match l with
  | [] => []
  | x :: l' => insert_by le x (sort_by le l')
  end.

(** [(a, b) => a.pickNumber - b.pickNumber] *)
Definition by_pickNumber (a b : DraftPick) : bool := pickNumber a <=? pickNumber b.

(** ** [runLotteryRound] *)

(** The randomness of one attempt: [shuffle_key k] is the key of the
    [k]-th team for the shuffle, [draw i] the [i]-th [Math.random()]
    consumed by [weightedRandomSelection]. *)
Record AttemptRng := mkAttemptRng {
  shuffle_key : nat -> nat;
  draw : nat -> Q
}.

(** The randomness of one call of [runLotteryRound], per attempt number. *)
Definition Rng := nat -> AttemptRng.

Definition MAX_ATTEMPTS : nat := 1000.

(** [config.teams[originalPosition - 1].id]: indexing out of range yields
    [undefined], and reading [.id] of it throws a [TypeError]. *)
Definition teamIdOf (config : DraftConfig) (originalPosition : Z) : result string :=
  let k := originalPosition - 1 in
  match (if k <? 0 then None else teams config !! Z.to_nat k) with
  | Some t => Ok (id t)
  | None => Throw "TypeError: Cannot read properties of undefined (reading 'id')"
  end.

Fixpoint mapR {A B} (f : A -> result B) (l : list A) : result (list B) :=
  match l with
  | [] => Ok []
  | x :: l' => y ← f x; ys ← mapR f l'; Ok (y :: ys)
  end.

(** [[...teams].sort(() => Math.random() - 0.5)] *)
Definition shuffle {A} (key : nat -> nat) (l : list A) : list A :=
  map snd (sort_by (fun a b => Nat.leb a.1 b.1)
                   (imap (fun k x => (key k, x)) l)).

(** [Array.from({ length: config.numberOfTeams }, (_, i) => i + 1)
       .filter((pos) => !assignedPositions.has(pos))] *)
Definition availableOf (config : DraftConfig) (assigned : list Z) : list Z :=
  List.filter (fun pos => negb (bool_decide (pos ∈ assigned)))
              (seqZ 1 (numberOfTeams config)).

(** The state of the [for (const team of shuffledTeams)] loop:
    [assignedPositions], [picks] and the index of the next draw. *)
Record LoopState := mkLoopState {
  assignedPositions : list Z;
  picks : list DraftPick;
  next_draw : nat
}.

Definition place_team (config : DraftConfig) (roundNumber : Z) (rand : nat -> Q)
    (st : LoopState) (team : Z * string) : result LoopState :=
  let '(origPos, tid) := team in
  let availablePositions := availableOf config (assignedPositions st) in
  let validRange := getValidPositionRange origPos (numberOfTeams config) in
  let validPositions := List.filter (in_range validRange) availablePositions in
  match validPositions with
  | [] => Throw "No valid positions"
  | _ :: _ =>
      '(selectedPosition, i) ←
        weightedRandomSelection availablePositions (weightedSystem config)
          origPos rand (next_draw st);
      Ok {| assignedPositions := selectedPosition :: assignedPositions st;
            picks := picks st ++
              [{| round := roundNumber; pickNumber := selectedPosition;
                  teamId := tid; originalPosition := origPos;
                  movement := selectedPosition - origPos |}];
            next_draw := i |}
  end.

Fixpoint place_all (config : DraftConfig) (roundNumber : Z) (rand : nat -> Q)
    (st : LoopState) (ts : list (Z * string)) : result LoopState :=
  match ts with
  | [] => Ok st
  | t :: ts' => st' ← place_team config roundNumber rand st t;
                place_all config roundNumber rand st' ts'
  end.

(** The body of the [try] block: [Ok (Some picks)] returns, [Ok None]
    (a pick failed the re-check) and [Throw _] (caught) go to the next
    attempt. *)
Definition run_attempt (config : DraftConfig) (roundNumber : Z)
    (initialOrder : list Z) (r : AttemptRng) : result (option (list DraftPick)) :=
  teams ← mapR (fun o => tid ← teamIdOf config o; Ok (o, tid)) initialOrder;
  let shuffledTeams := shuffle (shuffle_key r) teams in
  st ← place_all config roundNumber (draw r)
         {| assignedPositions := []; picks := []; next_draw := 0 |} shuffledTeams;
  let allValid := forallb (fun pick => Z.abs (movement pick) <=? MAX_MOVEMENT)
                          (picks st) in
  if allValid then Ok (Some (sort_by by_pickNumber (picks st))) else Ok None.

(** [while (attempt < MAX_ATTEMPTS) { attempt++; try { ... } catch {} }] *)
Fixpoint attempt_loop (config : DraftConfig) (roundNumber : Z)
    (initialOrder : list Z) (rng : Rng) (fuel attempt : nat)
    : option (list DraftPick) :=
  match fuel with
  | O => None
  | S fuel' =>
      match run_attempt config roundNumber initialOrder (rng (S attempt)) with
      | Ok (Some ps) => Some ps
      | _ => attempt_loop config roundNumber initialOrder rng fuel' (S attempt)
      end
  end.

(** The no-movement assignment returned after [MAX_ATTEMPTS] failures. *)
Definition fallback_picks (config : DraftConfig) (roundNumber : Z)
    (initialOrder : list Z) : result (list DraftPick) :=
  ps ← mapR (fun o => tid ← teamIdOf config o;
                Ok {| round := roundNumber; pickNumber := o; teamId := tid;
                      originalPosition := o; movement := 0 |}) initialOrder;
  Ok (sort_by by_pickNumber ps).

Definition runLotteryRound (rng : Rng) (config : DraftConfig) (roundNumber : Z)
    (initialOrder : list Z) : result (list DraftPick) :=
  match attempt_loop config roundNumber initialOrder rng MAX_ATTEMPTS 0 with
  | Some ps => Ok ps
  | None => fallback_picks config roundNumber initialOrder
  end.

(** ** [runCompleteLottery] *)

Definition join_errors (errs : list string) : string :=
  match errs with
  | [] => ""
  | e :: es => foldl (fun acc s => acc +:+ ", " +:+ s) e es
  end.

(** [for (let round = 1; round <= config.numberOfRounds; round++)], with
    [rounds] iterations left; [rngs round] is the randomness of that round. *)
Fixpoint rounds_loop (rngs : Z -> Rng) (config : DraftConfig)
    (initialOrder : list Z) (rounds : nat) (rnd : Z) (allPicks : list DraftPick)
    : result (list DraftPick) :=
  match rounds with
  | O => Ok allPicks
  | S rounds' =>
      roundPicks ← runLotteryRound (rngs rnd) config rnd initialOrder;
      let validation := validateDraftResults roundPicks in
      if negb (valid validation) then
        Throw ("Invalid lottery results for round " +:+ pretty rnd +:+ ": " +:+
               join_errors (errors validation))
      else rounds_loop rngs config initialOrder rounds' (rnd + 1)
             (allPicks ++ roundPicks)
  end.

Definition length_mismatch_message (given expected : Z) : string :=
  "Initial order length (" +:+ pretty given +:+
  ") must match number of teams (" +:+ pretty expected +:+ ")".

Definition runCompleteLottery (rngs : Z -> Rng) (config : DraftConfig)
    (initialOrder : list Z) : result (list DraftPick) :=
  if negb (Z.of_nat (length initialOrder) =? numberOfTeams config) then
    Throw (length_mismatch_message (Z.of_nat (length initialOrder))
                                   (numberOfTeams config))
  else
    rounds_loop rngs config initialOrder
      (Z.to_nat (numberOfRounds config)) 1 [].

(** [defaultConfig] of [database.ts] (without the logo and timing fields). *)
Definition defaultConfig : DraftConfig := {|
  numberOfTeams := 10;
  numberOfRounds := 5;
  teams := [mkTeam "team-1" "Knockout Kings"; mkTeam "team-2" "Operation BlackRhino";
            mkTeam "team-3" "Loco Lobos"; mkTeam "team-4" "Buck Hunters";
            mkTeam "team-5" "Chieftains"; mkTeam "team-6" "Redskin Nation";
            mkTeam "team-7" "Whiskey Warriors"; mkTeam "team-8" "Gorilla Warefare Klan";
            mkTeam "team-9" "Evil Engineers"; mkTeam "team-10" "Guardians"];
  weightedSystem := [mkOdds 10 (250 # 10); mkOdds 9 (188 # 10); mkOdds 8 (141 # 10);
                     mkOdds 7 (105 # 10); mkOdds 6 (79 # 10); mkOdds 5 (62 # 10);
                     mkOdds 4 (62 # 10); mkOdds 3 (47 # 10); mkOdds 2 (35 # 10);
                     mkOdds 1 (31 # 10)]
|}.

(** ** The [Database] class

    The JSON file [src/data/database.json] is modelled by its parsed content:
    [None] while the file does not exist, [Some db] when it holds
    [JSON.stringify(db, null, 2)] (for this plain data [JSON.parse] gives [db]
    back).  File-system failures other than a missing file, and concurrent
    calls, are not modelled: each static method runs alone, as a state
    transformer of the file that may throw. *)

Module DraftLottery.
Record t := mk {
  id : string;
  year : Z;
  date : string;
  picks : list DraftPick;
  config : DraftConfig
}.
End DraftLottery.
Abbreviation DraftLottery := DraftLottery.t.

Module DatabaseSchema.
Record t := mk {
  config : DraftConfig;
  lotteries : list DraftLottery
}.
End DatabaseSchema.
Abbreviation DatabaseSchema := DatabaseSchema.t.

Definition defaultDatabase : DatabaseSchema := DatabaseSchema.mk defaultConfig [].

Definition FileState := option DatabaseSchema.

(** An [async] method: from the file before the call to its result and the
    file after it. *)
Definition DB (A : Type) : Type := FileState -> result (A * FileState).

Global Instance DB_ret : MRet DB := fun A a fs => Ok (a, fs).
Global Instance DB_bind : MBind DB := fun A B f m fs =>
  match m fs with Ok (a, fs') => f a fs' | Throw e => Throw e end.

(** The value a call resolves to (or the error it rejects with). *)
Definition result_of {A} (m : DB A) (fs : FileState) : result A :=
  match m fs with Ok (a, _) => Ok a | Throw e => Throw e end.

(** The content a call reads: the file's, or [defaultDatabase] written by
    [ensureDbExists] when there is no file. *)
Definition stored (fs : FileState) : DatabaseSchema :=
  match fs with Some db => db | None => defaultDatabase end.

Module Database.

(** [fs.access] succeeds on an existing file; otherwise the [catch] block
    creates the directory and writes [defaultDatabase]. *)
Definition ensureDbExists : DB unit := fun fs =>
  match fs with
  | Some _ => Ok (tt, fs)
  | None => Ok (tt, Some defaultDatabase)
  end.

(** [fs.readFile(DB_PATH, 'utf-8')] followed by [JSON.parse]. *)
Definition readFile : DB DatabaseSchema := fun fs =>
  match fs with
  | Some db => Ok (db, fs)
  | None => Throw "ENOENT: no such file or directory"
  end.

(** [fs.writeFile(DB_PATH, JSON.stringify(data, null, 2))]. *)
Definition writeFile (data : DatabaseSchema) : DB unit := fun _ => Ok (tt, Some data).

Definition read : DB DatabaseSchema := _ ← ensureDbExists; readFile.

Definition write (data : DatabaseSchema) : DB unit := writeFile data.

Definition getConfig : DB DraftConfig :=
  db ← read; mret (DatabaseSchema.config db).

(** [db.config = config; await this.write(db)] *)
Definition updateConfig (config : DraftConfig) : DB unit :=
  db ← read; write (DatabaseSchema.mk config (DatabaseSchema.lotteries db)).

(** [(a, b) => b.year - a.year]: [a] may stay before [b] when
    [b.year - a.year <= 0]. *)
Definition by_year_desc (a b : DraftLottery) : bool :=
  DraftLottery.year b <=? DraftLottery.year a.

Definition getAllLotteries : DB (list DraftLottery) :=
  db ← read; mret (sort_by by_year_desc (DatabaseSchema.lotteries db)).

Definition getLotteryByYear (year : Z) : DB (option DraftLottery) :=
  db ← read;
  mret (List.find (fun lottery => DraftLottery.year lottery =? year)
                  (DatabaseSchema.lotteries db)).

(** [db.lotteries = db.lotteries.filter((l) => l.year !== lottery.year);
     db.lotteries.push(lottery); await this.write(db)] *)
Definition saveLottery (lottery : DraftLottery) : DB unit :=
  db ← read;
  let lotteries :=
    List.filter (fun l => negb (DraftLottery.year l =? DraftLottery.year lottery))
                (DatabaseSchema.lotteries db) in
  write (DatabaseSchema.mk (DatabaseSchema.config db) (lotteries ++ [lottery])).

Definition deleteLottery (year : Z) : DB unit :=
  db ← read;
  write (DatabaseSchema.mk (DatabaseSchema.config db)
           (List.filter (fun l => negb (DraftLottery.year l =? year))
                        (DatabaseSchema.lotteries db))).

Definition initialize : DB unit := ensureDbExists.

End Database.

(** At most one stored lottery per year. *)
Definition years_unique (fs : FileState) : Prop :=
  match fs with
  | None => True
  | Some db => NoDup (map DraftLottery.year (DatabaseSchema.lotteries db))
  end.

(** ** Sample inputs *)

(** Randomness that uses the same shuffle keys and the same draw [d] in
    every attempt. *)
Definition fixedRng (key : nat -> nat) (d : Q) : Rng :=
  fun _ => mkAttemptRng key (fun _ => d).

(** A draft order that is not the identity, and randomness under which the
    first attempt of [runLotteryRound] succeeds on it for [defaultConfig]. *)
Definition sampleOrder : list Z := [3; 1; 2; 4; 5; 6; 7; 8; 10; 9].

Definition sampleRng : Rng := fixedRng (fun k => k) (1 # 2).

Definition sampleRngs (round : Z) : Rng := sampleRng.

(** Ten entries, one of which names no team of [defaultConfig]. *)
Definition badOrder : list Z := [1; 2; 3; 4; 5; 6; 7; 8; 9; 11].



(** Two stored lotteries. *)
Definition lottery2023 : DraftLottery :=
  DraftLottery.mk "lottery-2023" 2023 "2023-08-20" [] defaultConfig.

Definition lottery2024 : DraftLottery :=
  DraftLottery.mk "lottery-2024" 2024 "2024-08-18" [] defaultConfig.

Definition sampleDatabase : DatabaseSchema :=
  DatabaseSchema.mk defaultConfig [lottery2023; lottery2024].

(** ** Names for the proofs *)

(** [validPositions] of [weightedRandomSelection]: the available positions
    inside the window computed with [weightedSystem.length] as team count. *)
Definition wrs_candidates (availablePositions : list Z)
    (weightedSystem : list WeightedOdds) (originalPosition : Z) : list Z :=
  List.filter
    (in_range (getValidPositionRange originalPosition
                 (Z.of_nat (length weightedSystem))))
    availablePositions.






(** * Proofs *)

(** ** Stable insertion sort *)

Section SortBy.
Context {A : Type} (le : A -> A -> bool).
Hypothesis le_total : forall a b, le a b = false -> le b a = true.

Lemma insert_by_perm x l : insert_by le x l ≡ₚ x :: l.
Proof.
  induction l as [|y l IH]; simpl; [done|].
  destruct (le x y); [done|].
  rewrite IH. constructor.
Qed.

Lemma sort_by_perm l : sort_by le l ≡ₚ l.
Proof.
  induction l as [|x l IH]; simpl; [done|].
  by rewrite insert_by_perm, IH.
Qed.

Lemma insert_by_sorted x l :
  Sorted (fun a b => le a b = true) l ->
  Sorted (fun a b => le a b = true) (insert_by le x l).
Proof.
  induction l as [|y l IH]; simpl; intros Hs; [by repeat constructor|].
  destruct (le x y) eqn:Hxy; [by constructor; [|constructor]|].
  apply Sorted_inv in Hs as [Hs Hhd].
  constructor; [by apply IH|].
  destruct l as [|z l]; simpl; [constructor; by apply le_total|].
  inversion Hhd; subst.
  destruct (le x z); constructor; [by apply le_total|done].
Qed.

Lemma sort_by_sorted l : Sorted (fun a b => le a b = true) (sort_by le l).
Proof.
  induction l as [|x l IH]; simpl; [constructor|].
  by apply insert_by_sorted.
Qed.
End SortBy.

Lemma by_pickNumber_total a b :
  by_pickNumber a b = false -> by_pickNumber b a = true.
Proof. unfold by_pickNumber. rewrite !Z.leb_le, Z.leb_nle. lia. Qed.

Lemma sort_picks_perm (ps : list DraftPick) : sort_by by_pickNumber ps ≡ₚ ps.
Proof. apply sort_by_perm. Qed.

Lemma sorted_pickNumbers (ps : list DraftPick) :
  Sorted Z.le (map pickNumber (sort_by by_pickNumber ps)).
Proof.
  pose proof (sort_by_sorted by_pickNumber by_pickNumber_total ps) as Hs.
  induction Hs as [|a l Hs IH Hhd]; simpl; constructor; [done|].
  destruct Hhd as [|b l Hab]; simpl; constructor.
  unfold by_pickNumber in Hab. by apply Z.leb_le.
Qed.

Lemma shuffle_perm {A} (key : nat -> nat) (l : list A) : shuffle key l ≡ₚ l.
Proof.
  unfold shuffle.
  rewrite (sort_by_perm _ (imap (fun k x => (key k, x)) l)).
  revert key. induction l as [|x l IH]; intros key; simpl; [done|].
  apply perm_skip, (IH (fun k => key (S k))).
Qed.

(** ** [weightedRandomSelection] *)

Lemma walk_in random cumulative probs x :
  walk random cumulative probs = Some x -> In x (map fst probs).
Proof.
  revert cumulative. induction probs as [|[pos p] rest IH]; simpl; intros c H;
    [discriminate|].
  destruct (Qle_bool random (c + p)); [left; congruence|right; eauto].
Qed.

Lemma in_wrs_candidates avail ws o c :
  In c (wrs_candidates avail ws o) <->
  In c avail /\ Z.max 1 (o - 2) <= c <= Z.min (Z.of_nat (length ws)) (o + 2).
Proof.
  unfold wrs_candidates. rewrite filter_In.
  unfold in_range, getValidPositionRange, MAX_MOVEMENT; simpl.
  rewrite andb_true_iff, !Z.leb_le. tauto.
Qed.

Lemma wrs_result_in_candidates avail ws o rand i x j :
  weightedRandomSelection avail ws o rand i = Ok (x, j) ->
  In x (wrs_candidates avail ws o).
Proof.
  unfold weightedRandomSelection. fold (wrs_candidates avail ws o). cbv zeta.
  destruct (wrs_candidates avail ws o) as [|p0 [|p1 rest]] eqn:Ec;
    [discriminate| intros H; injection H; intros; subst; by left|].
  destruct (List.find _ ws) as [teamOdds|]; [|discriminate].
  destruct (walk _ _ _) as [pos|] eqn:Ew; intros H; injection H; intros; subst;
    [|by left].
  apply walk_in in Ew. rewrite !map_map in Ew. simpl in Ew.
  by rewrite map_id in Ew.
Qed.

(** C8: the admissibility window is [max(1, p - 2), min(N, p + 2)]. *)
Theorem getValidPositionRange_spec :
  (forall p N, min (getValidPositionRange p N) = Z.max 1 (p - 2) /\
               max (getValidPositionRange p N) = Z.min N (p + 2)) /\
  getValidPositionRange 1 10 = {| min := 1; max := 3 |} /\
  getValidPositionRange 5 10 = {| min := 3; max := 7 |} /\
  getValidPositionRange 10 10 = {| min := 8; max := 10 |}.
Proof. repeat split. Qed.

(** C9: with a single admissible available position, [weightedRandomSelection]
    returns it whatever the draws, and consumes no draw. *)
Theorem wrs_singleton avail ws o x :
  wrs_candidates avail ws o = [x] ->
  forall rand i, weightedRandomSelection avail ws o rand i = Ok (x, i).
Proof.
  intros Hc rand i. unfold weightedRandomSelection.
  fold (wrs_candidates avail ws o). by rewrite Hc.
Qed.



Lemma wrs_singleton_witness :
  wrs_candidates [2; 5; 9] [mkOdds 1 10; mkOdds 2 20; mkOdds 3 30] 1 = [2] /\
  weightedRandomSelection [2; 5; 9] [mkOdds 1 10; mkOdds 2 20; mkOdds 3 30] 1
    (fun _ => (1 # 2)%Q) 7 = Ok (2, 7%nat).
Proof.
  split; [reflexivity|].
  apply (wrs_singleton [2; 5; 9] [mkOdds 1 10; mkOdds 2 20; mkOdds 3 30] 1 2).
  reflexivity.
Defined.

(** C10: the window of [weightedRandomSelection] takes [weightedSystem.length]
    as team count: its candidates are the available positions [c] with
    [max(1, o - 2) <= c <= min(weightedSystem.length, o + 2)], it returns one
    of them, and so never returns an available position above
    [min(weightedSystem.length, o + 2)], even one that the window of
    [runLotteryRound] (computed with [config.numberOfTeams]) accepts. *)
Theorem wrs_window_from_odds_length avail ws o rand i x j :
  weightedRandomSelection avail ws o rand i = Ok (x, j) ->
  (forall c, In c (wrs_candidates avail ws o) <->
     In c avail /\ Z.max 1 (o - 2) <= c <= Z.min (Z.of_nat (length ws)) (o + 2)) /\
  In x avail /\ Z.max 1 (o - 2) <= x <= Z.min (Z.of_nat (length ws)) (o + 2) /\
  (forall N c, In c avail -> Z.min (Z.of_nat (length ws)) (o + 2) < c ->
     in_range (getValidPositionRange o N) c = true -> x <> c).
Proof.
  intros H. apply wrs_result_in_candidates, in_wrs_candidates in H as [Hx Hr].
  split; [apply in_wrs_candidates|].
  split; [done|]. split; [done|].
  intros N c _ Hc _. lia.
Qed.

(** Three teams, an odds table of two entries: position 3 is in the window
    [[1, 3]] of [runLotteryRound] for team 3 but outside [[1, 2]]. *)
Lemma wrs_window_from_odds_length_witness :
  weightedRandomSelection [1; 2; 3] [mkOdds 3 50; mkOdds 2 20] 3
    (fun _ => 0%Q) 0 = Ok (1, 1%nat) /\
  in_range (getValidPositionRange 3 3) 3 = true /\ 1 <> 3.
Proof.
  assert (Hw : weightedRandomSelection [1; 2; 3] [mkOdds 3 50; mkOdds 2 20] 3
                 (fun _ => 0%Q) 0 = Ok (1, 1%nat)) by reflexivity.
  destruct (wrs_window_from_odds_length _ _ _ _ _ _ _ Hw) as (_ & _ & _ & Hn).
  split; [exact Hw|]. split; [reflexivity|].
  apply (Hn 3 3); [simpl; tauto|simpl; lia|reflexivity].
Defined.

(** ** The weighted walk of [weightedRandomSelection] against the spec *)

















(** ** Building blocks of [runLotteryRound] *)

Lemma seqZ_sorted m n : Sorted Z.le (seqZ m n).
Proof.
  apply StronglySorted_Sorted.
  destruct (Z.le_gt_cases n 0) as [Hn|Hn]; [rewrite seqZ_nil by done; constructor|].
  replace n with (Z.of_nat (Z.to_nat n)) by lia.
  generalize (Z.to_nat n) as k. clear n Hn. intros k. revert m.
  induction k as [|k IH]; intros m; [rewrite seqZ_nil by lia; constructor|].
  rewrite seqZ_cons by lia. constructor.
  - replace (Z.pred (Z.of_nat (S k))) with (Z.of_nat k) by lia. apply IH.
  - apply Forall_forall. intros x Hx. apply elem_of_seqZ in Hx. lia.
Qed.

Lemma mapR_ok {A B} (f : A -> result B) l l' :
  mapR f l = Ok l' -> Forall2 (fun x y => f x = Ok y) l l'.
Proof.
  revert l'. induction l as [|x l IH]; simpl; intros l' H.
  - injection H as <-. constructor.
  - destruct (f x) as [y|e] eqn:Hfx; [|discriminate]. simpl in H.
    destruct (mapR f l) as [ys|e] eqn:Hl; [|discriminate]. simpl in H.
    injection H as <-. constructor; auto.
Qed.

Lemma mapR_total {A B} (f : A -> result B) l :
  (forall x, In x l -> is_ok (f x) = true) -> is_ok (mapR f l) = true.
Proof.
  induction l as [|x l IH]; simpl; intros H; [done|].
  specialize (H x (or_introl eq_refl)) as Hx.
  destruct (f x); [|discriminate]. simpl.
  specialize (IH (fun y Hy => H y (or_intror Hy))).
  destruct (mapR f l); [done|discriminate].
Qed.

Lemma mapR_fail {A B} (f : A -> result B) l x :
  In x l -> is_ok (f x) = false -> is_ok (mapR f l) = false.
Proof.
  induction l as [|y l IH]; simpl; intros Hin Hx; [done|].
  destruct Hin as [->|Hin].
  - by destruct (f x).
  - destruct (f y); simpl; [|done]. specialize (IH Hin Hx).
    by destruct (mapR f l).
Qed.

Lemma teamIdOf_ok config o :
  1 <= o <= Z.of_nat (length (teams config)) -> is_ok (teamIdOf config o) = true.
Proof.
  intros Ho. unfold teamIdOf.
  destruct (o - 1 <? 0) eqn:H; [apply Z.ltb_lt in H; lia|].
  destruct (teams config !! Z.to_nat (o - 1)) eqn:Hl; [done|].
  apply lookup_ge_None in Hl. lia.
Qed.

Lemma teamIdOf_fail config o :
  ~ (1 <= o <= Z.of_nat (length (teams config))) -> is_ok (teamIdOf config o) = false.
Proof.
  intros Ho. unfold teamIdOf.
  destruct (o - 1 <? 0) eqn:H; [done|]. apply Z.ltb_nlt in H.
  destruct (teams config !! Z.to_nat (o - 1)) eqn:Hl; [|done].
  apply lookup_lt_Some in Hl. lia.
Qed.

Lemma place_team_step config r rand st t st' :
  place_team config r rand st t = Ok st' ->
  exists x, (x ∉ assignedPositions st) /\ 1 <= x <= numberOfTeams config /\
    assignedPositions st' = x :: assignedPositions st /\
    picks st' = picks st ++
      [{| round := r; pickNumber := x; teamId := t.2;
          originalPosition := t.1; movement := x - t.1 |}].
Proof.
  destruct t as [o tid]. unfold place_team.
  destruct (List.filter _ _); [discriminate|].
  destruct (weightedRandomSelection _ _ _ _ _) as [[x i]|e] eqn:Hw; [|discriminate].
  simpl. intros H. injection H as <-. exists x.
  apply wrs_result_in_candidates, in_wrs_candidates in Hw as [Hx _].
  unfold availableOf in Hx. apply filter_In in Hx as [Hx Hna].
  rewrite <- list_elem_of_In, elem_of_seqZ in Hx.
  apply negb_true_iff, bool_decide_eq_false in Hna.
  simpl. repeat split; try done; lia.
Qed.

Lemma place_all_spec config r rand ts st st' :
  place_all config r rand st ts = Ok st' ->
  NoDup (assignedPositions st) ->
  (forall x, x ∈ assignedPositions st -> 1 <= x <= numberOfTeams config) ->
  map pickNumber (picks st) ≡ₚ assignedPositions st ->
  NoDup (assignedPositions st') /\
  (forall x, x ∈ assignedPositions st' -> 1 <= x <= numberOfTeams config) /\
  map pickNumber (picks st') ≡ₚ assignedPositions st' /\
  exists nw, picks st' = picks st ++ nw /\ map originalPosition nw = map fst ts /\
             Forall (fun p => round p = r) nw.
Proof.
  revert st. induction ts as [|t ts IH]; simpl; intros st H Hnd Hin Hp.
  - injection H as <-. split; [done|]. split; [done|]. split; [done|].
    exists []. by rewrite app_nil_r.
  - destruct (place_team config r rand st t) as [st1|e] eqn:Ht; [|discriminate].
    simpl in H. apply place_team_step in Ht as (x & Hx & Hrange & Ha & Hps).
    destruct (IH st1 H) as (Hnd' & Hin' & Hp' & nw & Hnw & Ho & Hr).
    + rewrite Ha. by constructor.
    + rewrite Ha. intros y Hy. apply elem_of_cons in Hy as [->|Hy]; auto.
    + rewrite Ha, Hps, map_app, Hp. simpl. by rewrite Permutation_app_comm.
    + split; [done|]. split; [done|]. split; [done|].
      eexists. rewrite Hnw, Hps, <- app_assoc. split; [reflexivity|].
      simpl. rewrite Ho. split; [done|]. by constructor.
Qed.

Lemma run_attempt_some config r io ar ps :
  run_attempt config r io ar = Ok (Some ps) ->
  Forall (fun p => Z.abs (movement p) <= MAX_MOVEMENT) ps /\
  NoDup (map pickNumber ps) /\
  (forall x, x ∈ map pickNumber ps -> 1 <= x <= numberOfTeams config) /\
  map originalPosition ps ≡ₚ io /\
  Forall (fun p => round p = r) ps /\
  Sorted Z.le (map pickNumber ps).
Proof.
  unfold run_attempt.
  destruct (mapR _ io) as [tms|e] eqn:Hm; [|discriminate]. simpl.
  destruct (place_all _ _ _ _ _) as [st|e] eqn:Hpl; [|discriminate]. simpl.
  destruct (forallb _ _) eqn:Hv; [|discriminate].
  intros H. injection H as <-.
  apply place_all_spec in Hpl as (Hnd & Hin & Hp & nw & Hnw & Ho & Hr);
    [|constructor|intros x Hx; by apply elem_of_nil in Hx|done].
  simpl in Hnw. subst nw.
  pose proof (sort_picks_perm (picks st)) as Hperm.
  assert (Hfst : map fst tms = io).
  { apply mapR_ok in Hm. clear -Hm.
    induction Hm as [|o p io tms Hop _ IH]; [done|].
    simpl. destruct (teamIdOf config o); [|discriminate].
    simpl in Hop. injection Hop as <-. simpl. by rewrite IH. }
  split; [|split; [|split; [|split; [|split]]]].
  - rewrite Hperm. apply Forall_forall. intros p Hp'.
    rewrite forallb_forall in Hv. apply Z.leb_le, Hv. by apply list_elem_of_In.
  - rewrite Hperm, Hp. done.
  - intros x Hx. apply Hin. by rewrite <- Hp, <- Hperm.
  - rewrite Hperm, Ho, <- Hfst. apply Permutation_map, shuffle_perm.
  - by rewrite Hperm.
  - apply sorted_pickNumbers.
Qed.

Lemma attempt_loop_some config r io rng fuel a ps :
  attempt_loop config r io rng fuel a = Some ps ->
  exists k, run_attempt config r io (rng k) = Ok (Some ps).
Proof.
  revert a. induction fuel as [|fuel IH]; simpl; intros a H; [discriminate|].
  destruct (run_attempt config r io (rng (S a))) as [[qs|]|e] eqn:Hr; eauto.
  injection H as <-. eauto.
Qed.

Lemma attempt_loop_none config r io rng fuel a :
  (forall k, (a < k <= a + fuel)%nat ->
     match run_attempt config r io (rng k) with Ok (Some _) => False | _ => True end) ->
  attempt_loop config r io rng fuel a = None.
Proof.
  revert a. induction fuel as [|fuel IH]; simpl; intros a H; [done|].
  pose proof (H (S a) ltac:(lia)) as Ha.
  assert (Hrest : attempt_loop config r io rng fuel (S a) = None)
    by (apply IH; intros k Hk; apply H; lia).
  destruct (run_attempt config r io (rng (S a))) as [[qs|]|e]; done.
Qed.

Lemma fallback_picks_ok config r io ps :
  fallback_picks config r io = Ok ps ->
  map originalPosition ps ≡ₚ io /\
  Forall (fun p => pickNumber p = originalPosition p /\ movement p = 0 /\
                   round p = r /\ teamIdOf config (originalPosition p) = Ok (teamId p)) ps /\
  Sorted Z.le (map pickNumber ps).
Proof.
  unfold fallback_picks.
  destruct (mapR _ io) as [ps0|e] eqn:Hm; [|discriminate]. simpl.
  intros H. injection H as <-.
  pose proof (sort_picks_perm ps0) as Hperm.
  apply mapR_ok in Hm.
  assert (Hall : map originalPosition ps0 = io /\
    Forall (fun p => pickNumber p = originalPosition p /\ movement p = 0 /\
             round p = r /\ teamIdOf config (originalPosition p) = Ok (teamId p)) ps0).
  { clear Hperm. induction Hm as [|o p io ps0 Ho _ [IH1 IH2]]; [done|].
    destruct (teamIdOf config o) as [tid|e] eqn:Ht; [|discriminate].
    simpl in Ho. injection Ho as <-. simpl. rewrite IH1.
    split; [done|]. constructor; [|done]. simpl. by repeat split. }
  destruct Hall as [Ho Hf].
  split; [by rewrite Hperm, Ho|]. split; [by rewrite Hperm|].
  apply sorted_pickNumbers.
Qed.

Lemma fallback_picks_total config r io :
  (forall o, In o io -> 1 <= o <= Z.of_nat (length (teams config))) ->
  is_ok (fallback_picks config r io) = true.
Proof.
  intros Hio. unfold fallback_picks.
  pose proof (mapR_total (fun o => tid ← teamIdOf config o;
                Ok {| round := r; pickNumber := o; teamId := tid;
                      originalPosition := o; movement := 0 |}) io) as H.
  destruct (mapR _ io); [done|]. exfalso.
  assert (Hf : false = true); [|discriminate]. rewrite <- H; [done|].
  intros o Ho. pose proof (teamIdOf_ok config o (Hio o Ho)) as Ht.
  by destruct (teamIdOf config o).
Qed.

Lemma runLotteryRound_cases rng config r io ps :
  runLotteryRound rng config r io = Ok ps ->
  (exists k, run_attempt config r io (rng k) = Ok (Some ps)) \/
  fallback_picks config r io = Ok ps.
Proof.
  unfold runLotteryRound.
  destruct (attempt_loop _ _ _ _ _ _) as [qs|] eqn:Hl; [|by right].
  intros H. injection H as <-. left. by eapply attempt_loop_some.
Qed.

Lemma runLotteryRound_ok rng config r io :
  (forall o, In o io -> 1 <= o <= Z.of_nat (length (teams config))) ->
  exists ps, runLotteryRound rng config r io = Ok ps.
Proof.
  intros Hio. unfold runLotteryRound.
  destruct (attempt_loop _ _ _ _ _ _) as [qs|]; [by eexists|].
  pose proof (fallback_picks_total config r io Hio) as H.
  destruct (fallback_picks config r io); [by eexists|discriminate].
Qed.

Lemma runLotteryRound_shape rng config r io ps :
  runLotteryRound rng config r io = Ok ps ->
  length ps = length io /\ Forall (fun p => round p = r) ps /\
  Forall (fun p => Z.abs (movement p) <= MAX_MOVEMENT) ps /\
  Sorted Z.le (map pickNumber ps).
Proof.
  intros H. apply runLotteryRound_cases in H as [[k Hk]|Hf].
  - apply run_attempt_some in Hk as (Hmv & _ & _ & Ho & Hr & Hs).
    rewrite <- (length_map originalPosition), Ho. done.
  - apply fallback_picks_ok in Hf as (Ho & Hall & Hs).
    split; [by rewrite <- (length_map originalPosition), Ho|].
    split; [|split; [|done]]; eapply Forall_impl; try exact Hall; simpl.
    + intros p (_ & _ & Hr & _). done.
    + intros p (_ & Hm & _). rewrite Hm. unfold MAX_MOVEMENT. lia.
Qed.

Lemma validate_ok picks :
  Forall (fun p => Z.abs (movement p) <= MAX_MOVEMENT) picks ->
  valid (validateDraftResults picks) = true.
Proof.
  intros H. unfold validateDraftResults. simpl. apply bool_decide_eq_true.
  induction H as [|p ps Hp _ IH]; simpl; [done|].
  destruct (MAX_MOVEMENT <? Z.abs (movement p)) eqn:Hlt; [apply Z.ltb_lt in Hlt; lia|].
  done.
Qed.

Lemma bind_Ok {A B} (a : A) (f : A -> result B) : (Ok a ≫= f) = f a.
Proof. reflexivity. Qed.

Lemma bind_Throw {A B} (e : string) (f : A -> result B) : (Throw e ≫= f) = Throw e.
Proof. reflexivity. Qed.

(** One iteration of the [for] loop of [runCompleteLottery], as an equation
    (rewriting with it keeps the round function folded). *)
Lemma rounds_loop_S rngs config io n rnd acc :
  rounds_loop rngs config io (S n) rnd acc =
  (roundPicks ← runLotteryRound (rngs rnd) config rnd io;
   let validation := validateDraftResults roundPicks in
   if negb (valid validation) then
     Throw ("Invalid lottery results for round " +:+ pretty rnd +:+ ": " +:+
            join_errors (errors validation))
   else rounds_loop rngs config io n (rnd + 1) (acc ++ roundPicks)).
Proof. reflexivity. Qed.

Lemma rounds_loop_spec rngs config io n rnd acc ps :
  rounds_loop rngs config io n rnd acc = Ok ps ->
  exists blocks, ps = acc ++ concat blocks /\ length blocks = n /\
    forall k b, blocks !! k = Some b ->
      length b = length io /\ Forall (fun p => round p = rnd + Z.of_nat k) b /\
      Forall (fun p => Z.abs (movement p) <= MAX_MOVEMENT) b.
Proof.
  revert rnd acc. induction n as [|n IH]; intros rnd acc H; [|rewrite rounds_loop_S in H].
  - injection H as <-. exists []. split; [by rewrite app_nil_r|]. split; [done|].
    intros k b Hk. by rewrite lookup_nil in Hk.
  - destruct (runLotteryRound (rngs rnd) config rnd io) as [rp|e] eqn:Hr;
      [rewrite bind_Ok in H; cbv beta zeta in H|by rewrite bind_Throw in H].
    destruct (valid (validateDraftResults rp)); cbn [negb] in H; [|discriminate].
    apply IH in H as (blocks & -> & Hlen & Hb).
    apply runLotteryRound_shape in Hr as (Hl & Hrd & Hmv & _).
    exists (rp :: blocks). split; [by rewrite <- app_assoc|].
    split; [cbn [length]; by rewrite Hlen|].
    intros [|k] b Hk; simpl in Hk.
    + injection Hk as <-. split; [done|]. split; [|done].
      eapply Forall_impl; [exact Hrd|]. intros p ->. lia.
    + destruct (Hb k b Hk) as (Hbl & Hbr & Hbm). split; [done|]. split; [|done].
      eapply Forall_impl; [exact Hbr|]. intros p ->. lia.
Qed.

Lemma rounds_loop_total rngs config io n rnd acc :
  (forall o, In o io -> 1 <= o <= Z.of_nat (length (teams config))) ->
  is_ok (rounds_loop rngs config io n rnd acc) = true.
Proof.
  intros Hio. revert rnd acc. induction n as [|n IH]; intros rnd acc; [done|].
  rewrite rounds_loop_S.
  destruct (runLotteryRound_ok (rngs rnd) config rnd io Hio) as [rp Hr].
  rewrite Hr, bind_Ok. cbv beta zeta.
  apply runLotteryRound_shape in Hr as (_ & _ & Hmv & _).
  rewrite validate_ok by done. apply IH.
Qed.

Lemma sorted_perm_seqZ (l : list Z) m n :
  Sorted Z.le l -> l ≡ₚ seqZ m n -> l = seqZ m n.
Proof.
  intros Hs Hp. apply (@Sorted_unique_strong Z Z.le _); [|done|apply seqZ_sorted|done].
  intros x y _ _ ? ?. lia.
Qed.

(** ** Helpers for the round and lottery theorems *)

Lemma place_all_movement config r rand ts st st' :
  place_all config r rand st ts = Ok st' ->
  Forall (fun p => movement p = pickNumber p - originalPosition p) (picks st) ->
  Forall (fun p => movement p = pickNumber p - originalPosition p) (picks st').
Proof.
  revert st. induction ts as [|t ts IH]; simpl; intros st H Hf.
  - injection H as <-. done.
  - destruct (place_team config r rand st t) as [st1|e] eqn:Ht; [|discriminate].
    simpl in H. apply (IH st1 H).
    apply place_team_step in Ht as (x & _ & _ & _ & ->).
    apply Forall_app; split; [done|]. constructor; [simpl; lia|constructor].
Qed.

Lemma run_attempt_movement config r io ar ps :
  run_attempt config r io ar = Ok (Some ps) ->
  Forall (fun p => movement p = pickNumber p - originalPosition p) ps.
Proof.
  unfold run_attempt.
  destruct (mapR _ io) as [tms|e]; [|discriminate]. simpl.
  destruct (place_all _ _ _ _ _) as [st|e] eqn:Hpl; [|discriminate]. simpl.
  destruct (forallb _ _); [|discriminate].
  intros H. injection H as <-.
  rewrite (sort_picks_perm (picks st)).
  eapply place_all_movement; [exact Hpl|constructor].
Qed.

Lemma runLotteryRound_movement rng config r io ps :
  runLotteryRound rng config r io = Ok ps ->
  Forall (fun p => movement p = pickNumber p - originalPosition p /\
                   Z.abs (movement p) <= 2) ps.
Proof.
  intros H. pose proof (runLotteryRound_shape _ _ _ _ _ H) as (_ & _ & Hmv & _).
  apply runLotteryRound_cases in H as [[k Hk]|Hf].
  - apply run_attempt_movement in Hk. apply Forall_and; split; [done|].
    eapply Forall_impl; [exact Hmv|]. intros p Hp. unfold MAX_MOVEMENT in Hp. lia.
  - apply fallback_picks_ok in Hf as (_ & Hall & _).
    eapply Forall_impl; [exact Hall|]. intros p (H1 & H2 & _). lia.
Qed.

Lemma rounds_loop_Forall (P : DraftPick -> Prop) rngs config io n rnd acc ps :
  (forall rnd' ps', runLotteryRound (rngs rnd') config rnd' io = Ok ps' -> Forall P ps') ->
  Forall P acc ->
  rounds_loop rngs config io n rnd acc = Ok ps -> Forall P ps.
Proof.
  intros Hround. revert rnd acc.
  induction n as [|n IH]; intros rnd acc Hacc H; [|rewrite rounds_loop_S in H].
  - injection H as <-. done.
  - destruct (runLotteryRound (rngs rnd) config rnd io) as [rp|e] eqn:Hr;
      [rewrite bind_Ok in H; cbv beta zeta in H|by rewrite bind_Throw in H].
    destruct (valid (validateDraftResults rp)); cbn [negb] in H; [|discriminate].
    apply (IH _ _ (proj2 (Forall_app _ _ _) (conj Hacc (Hround _ _ Hr))) H).
Qed.

Lemma runCompleteLottery_mismatch rngs config io :
  Z.of_nat (length io) <> numberOfTeams config ->
  runCompleteLottery rngs config io =
  Throw (length_mismatch_message (Z.of_nat (length io)) (numberOfTeams config)).
Proof.
  intros H. unfold runCompleteLottery. rewrite (proj2 (Z.eqb_neq _ _) H). reflexivity.
Qed.

Lemma runCompleteLottery_match rngs config io :
  Z.of_nat (length io) = numberOfTeams config ->
  runCompleteLottery rngs config io =
  rounds_loop rngs config io (Z.to_nat (numberOfRounds config)) 1 [].
Proof.
  intros H. unfold runCompleteLottery. rewrite (proj2 (Z.eqb_eq _ _) H). reflexivity.
Qed.

Lemma teamIdOf_bind_fail {B} config o (k : string -> result B) :
  ~ (1 <= o <= Z.of_nat (length (teams config))) ->
  is_ok (tid ← teamIdOf config o; k tid) = false.
Proof.
  intros H. pose proof (teamIdOf_fail config o H) as Ht.
  by destruct (teamIdOf config o).
Qed.

Lemma runLotteryRound_fail rng config r io o :
  In o io -> ~ (1 <= o <= Z.of_nat (length (teams config))) ->
  is_ok (runLotteryRound rng config r io) = false.
Proof.
  intros Hin Hbad. unfold runLotteryRound.
  rewrite attempt_loop_none.
  - unfold fallback_picks.
    pose proof (mapR_fail (fun o => tid ← teamIdOf config o;
                Ok {| round := r; pickNumber := o; teamId := tid;
                      originalPosition := o; movement := 0 |}) io o Hin
                (teamIdOf_bind_fail _ _ _ Hbad)) as Hf.
    destruct (mapR _ io); [discriminate|]. reflexivity.
  - intros k _. unfold run_attempt.
    pose proof (mapR_fail (fun o => tid ← teamIdOf config o; Ok (o, tid)) io o Hin
                (teamIdOf_bind_fail _ _ _ Hbad)) as Hf.
    destruct (mapR _ io); [discriminate|]. exact I.
Qed.

Lemma length_concat_uniform {A} (blocks : list (list A)) n :
  (forall k b, blocks !! k = Some b -> length b = n) ->
  length (concat blocks) = (length blocks * n)%nat.
Proof.
  induction blocks as [|b bs IH]; intros H; [done|].
  simpl. rewrite length_app, (H 0%nat b eq_refl), IH; [lia|].
  intros k b' Hk. apply (H (S k)). done.
Qed.

Lemma count_round_block b x r :
  Forall (fun p => round p = x) b ->
  length (List.filter (fun p => round p =? r) b) = if x =? r then length b else 0%nat.
Proof.
  induction 1 as [|p b Hp _ IH]; [by destruct (x =? r)|].
  cbn [List.filter]. rewrite Hp.
  destruct (x =? r); cbn [length]; rewrite IH; done.
Qed.

Lemma count_round_blocks blocks rnd n r :
  (forall k b, blocks !! k = Some b ->
     length b = n /\ Forall (fun p => round p = rnd + Z.of_nat k) b) ->
  length (List.filter (fun p => round p =? r) (concat blocks)) =
  if (rnd <=? r) && (r <? rnd + Z.of_nat (length blocks)) then n else 0%nat.
Proof.
  revert rnd. induction blocks as [|b bs IH]; intros rnd H.
  - cbn [concat List.filter length].
    destruct ((rnd <=? r) && (r <? rnd + Z.of_nat 0)) eqn:E; [|done].
    apply andb_true_iff in E as [E1 E2]. apply Z.leb_le in E1. apply Z.ltb_lt in E2. lia.
  - cbn [concat length]. rewrite List.filter_app, length_app.
    destruct (H 0%nat b eq_refl) as [Hl Hr].
    rewrite (count_round_block b rnd r) by (eapply Forall_impl; [exact Hr|]; intros p ->; lia).
    rewrite (IH (rnd + 1)).
    2: { intros k b' Hk. destruct (H (S k) b' Hk) as [Hl' Hr']. split; [done|].
         eapply Forall_impl; [exact Hr'|]. intros p ->. lia. }
    rewrite Hl.
    destruct (Z.eqb_spec rnd r), (Z.leb_spec rnd r), (Z.leb_spec (rnd + 1) r),
      (Z.ltb_spec r (rnd + 1 + Z.of_nat (length bs))),
      (Z.ltb_spec r (rnd + Z.of_nat (S (length bs)))); simpl; lia.
Qed.

(** ** Claims on [runLotteryRound] and [runCompleteLottery] *)

(** C1: when the initial order is a permutation of [1..N] and every
    position has a team record, [runLotteryRound] returns normally, and the
    pick numbers of its result are exactly [1, 2, ..., N] in this order. *)
Theorem round_pickNumbers_exact rng config r io :
  io ≡ₚ seqZ 1 (numberOfTeams config) ->
  numberOfTeams config <= Z.of_nat (length (teams config)) ->
  exists ps, runLotteryRound rng config r io = Ok ps /\
             map pickNumber ps = seqZ 1 (numberOfTeams config).
Proof.
  intros Hp HN.
  assert (Hio : forall o, In o io -> 1 <= o <= Z.of_nat (length (teams config))).
  { intros o Ho. apply list_elem_of_In in Ho. rewrite Hp, elem_of_seqZ in Ho. lia. }
  destruct (runLotteryRound_ok rng config r io Hio) as [ps Hps].
  exists ps. split; [done|].
  pose proof (runLotteryRound_shape _ _ _ _ _ Hps) as (Hl & _ & _ & Hs).
  apply sorted_perm_seqZ; [done|].
  apply runLotteryRound_cases in Hps as [[k Hk]|Hf].
  - apply run_attempt_some in Hk as (_ & Hnd & Hin & _ & _ & _).
    apply submseteq_length_Permutation.
    + apply NoDup_submseteq; [done|]. intros x Hx.
      apply elem_of_seqZ. specialize (Hin x Hx). lia.
    + rewrite length_map, Hl, Hp. done.
  - apply fallback_picks_ok in Hf as (Ho & Hall & _).
    assert (Hpo : map pickNumber ps = map originalPosition ps).
    { clear -Hall. induction Hall as [|p ps [Hpn _] _ IH]; simpl; congruence. }
    by rewrite Hpo, Ho.
Qed.

Lemma round_pickNumbers_exact_witness :
  exists ps, runLotteryRound sampleRng defaultConfig 1 sampleOrder = Ok ps /\
             map pickNumber ps = [1; 2; 3; 4; 5; 6; 7; 8; 9; 10].
Proof.
  apply (round_pickNumbers_exact sampleRng defaultConfig 1 sampleOrder).
  - apply (bool_decide_unpack _). vm_compute. exact I.
  - simpl. lia.
Defined.

(** C2: every pick returned by [runLotteryRound], and every pick returned
    by [runCompleteLottery], has [movement = pickNumber - originalPosition]
    and [|movement| <= 2]. *)
Theorem movement_within_two :
  (forall rng config r io ps, runLotteryRound rng config r io = Ok ps ->
     Forall (fun p => movement p = pickNumber p - originalPosition p /\
                      Z.abs (movement p) <= 2) ps) /\
  (forall rngs config io ps, runCompleteLottery rngs config io = Ok ps ->
     Forall (fun p => movement p = pickNumber p - originalPosition p /\
                      Z.abs (movement p) <= 2) ps).
Proof.
  split; [exact runLotteryRound_movement|].
  intros rngs config io ps H.
  destruct (Z.eq_dec (Z.of_nat (length io)) (numberOfTeams config)) as [E|E].
  - rewrite runCompleteLottery_match in H by done.
    eapply rounds_loop_Forall; [|constructor|exact H].
    intros rnd ps'. apply runLotteryRound_movement.
  - rewrite runCompleteLottery_mismatch in H by done. discriminate.
Qed.

Lemma movement_within_two_witness :
  Forall (fun p => movement p = pickNumber p - originalPosition p /\
                   Z.abs (movement p) <= 2)
    (match runLotteryRound sampleRng defaultConfig 1 sampleOrder with
     | Ok ps => ps | Throw _ => [] end) /\
  Forall (fun p => movement p = pickNumber p - originalPosition p /\
                   Z.abs (movement p) <= 2)
    (match runCompleteLottery sampleRngs defaultConfig sampleOrder with
     | Ok ps => ps | Throw _ => [] end).
Proof.
  split.
  - apply (proj1 movement_within_two sampleRng defaultConfig 1 sampleOrder).
    vm_compute. reflexivity.
  - apply (proj2 movement_within_two sampleRngs defaultConfig sampleOrder).
    vm_compute. reflexivity.
Defined.

(** C3 (corrected): [runCompleteLottery] throws exactly when the length of
    the initial order differs from [numberOfTeams], or when there is at
    least one round and some entry of the order names no team record
    ([config.teams[o - 1].id] throws a [TypeError]); the length-mismatch
    error's message contains both lengths. *)
Theorem runCompleteLottery_throws_iff rngs config io :
  (is_ok (runCompleteLottery rngs config io) = false <->
     Z.of_nat (length io) <> numberOfTeams config \/
     (1 <= numberOfRounds config /\
      exists o, In o io /\ ~ (1 <= o <= Z.of_nat (length (teams config))))) /\
  (Z.of_nat (length io) <> numberOfTeams config ->
     exists pre mid post,
       runCompleteLottery rngs config io =
       Throw (pre +:+ pretty (Z.of_nat (length io)) +:+ mid +:+
              pretty (numberOfTeams config) +:+ post)).
Proof.
  split; [split|].
  - intros Hf.
    destruct (Z.eq_dec (Z.of_nat (length io)) (numberOfTeams config)) as [E|E];
      [|by left].
    right. rewrite runCompleteLottery_match in Hf by done.
    destruct (decide (Forall (fun o => 1 <= o <= Z.of_nat (length (teams config))) io))
      as [Hall|Hn].
    + rewrite rounds_loop_total in Hf; [discriminate|].
      intros o Ho. rewrite Forall_forall in Hall. apply Hall, list_elem_of_In, Ho.
    + split.
      * destruct (Z.le_gt_cases 1 (numberOfRounds config)) as [HR|HR]; [done|].
        replace (Z.to_nat (numberOfRounds config)) with 0%nat in Hf by lia.
        discriminate Hf.
      * apply not_Forall_Exists in Hn; [|apply _].
        apply List.Exists_exists in Hn as (o & Ho & Hbad). by exists o.
  - intros [Hne|(HR & o & Hin & Hbad)].
    + rewrite runCompleteLottery_mismatch by done. reflexivity.
    + destruct (Z.eq_dec (Z.of_nat (length io)) (numberOfTeams config)) as [E|E];
        [|rewrite runCompleteLottery_mismatch by done; reflexivity].
      rewrite runCompleteLottery_match by done.
      destruct (Z.to_nat (numberOfRounds config)) as [|n] eqn:ER; [lia|].
      rewrite rounds_loop_S.
      pose proof (runLotteryRound_fail (rngs 1) config 1 io o Hin Hbad) as Hr.
      destruct (runLotteryRound (rngs 1) config 1 io); [discriminate|].
      rewrite bind_Throw. reflexivity.
  - intros Hne. rewrite runCompleteLottery_mismatch by done.
    exists "Initial order length ("%string, ") must match number of teams ("%string,
      ")"%string.
    reflexivity.
Qed.

Lemma runCompleteLottery_throws_iff_witness :
  is_ok (runCompleteLottery sampleRngs defaultConfig [1; 2; 3; 4; 5]) = false /\
  exists pre mid post,
    runCompleteLottery sampleRngs defaultConfig [1; 2; 3; 4; 5] =
    Throw (pre +:+ pretty 5 +:+ mid +:+ pretty 10 +:+ post).
Proof.
  destruct (runCompleteLottery_throws_iff sampleRngs defaultConfig [1; 2; 3; 4; 5])
    as [Hiff Hmsg].
  split.
  - apply Hiff. left. simpl. lia.
  - apply Hmsg. simpl. lia.
Defined.

(** C3 counterexample: an initial order of the right length whose entry
    [11] names no team of [defaultConfig]: [runCompleteLottery] throws. *)
Lemma runCompleteLottery_equal_length_throws :
  Z.of_nat (length badOrder) = numberOfTeams defaultConfig /\
  runCompleteLottery sampleRngs defaultConfig badOrder =
  Throw "TypeError: Cannot read properties of undefined (reading 'id')".
Proof. split; [reflexivity|vm_compute; reflexivity]. Qed.




(** C7: for an initial order that is a permutation of [1..N], with a team
    record for every position and [R >= 0] rounds, [runCompleteLottery]
    returns the concatenation of [R] blocks, the [k]-th (from 0) holding
    [N] picks of round [k + 1]; so [N * R] picks in all, and for every
    [r] exactly [N] picks of round [r] when [1 <= r <= R] and none
    otherwise. *)
Theorem runCompleteLottery_round_blocks rngs config io :
  io ≡ₚ seqZ 1 (numberOfTeams config) ->
  0 <= numberOfTeams config ->
  numberOfTeams config <= Z.of_nat (length (teams config)) ->
  0 <= numberOfRounds config ->
  exists ps blocks, runCompleteLottery rngs config io = Ok ps /\
    ps = concat blocks /\
    Z.of_nat (length blocks) = numberOfRounds config /\
    (forall k b, blocks !! k = Some b ->
       Z.of_nat (length b) = numberOfTeams config /\
       Forall (fun p => round p = Z.of_nat k + 1) b) /\
    Z.of_nat (length ps) = numberOfTeams config * numberOfRounds config /\
    (forall r, Z.of_nat (length (List.filter (fun p => round p =? r) ps)) =
       if (1 <=? r) && (r <=? numberOfRounds config) then numberOfTeams config else 0).
Proof.
  intros Hp HN0 HN HR.
  assert (Hlen : length io = Z.to_nat (numberOfTeams config))
    by (rewrite Hp, length_seqZ; done).
  assert (Hio : forall o, In o io -> 1 <= o <= Z.of_nat (length (teams config))).
  { intros o Ho. apply list_elem_of_In in Ho. rewrite Hp, elem_of_seqZ in Ho. lia. }
  rewrite runCompleteLottery_match by lia.
  pose proof (rounds_loop_total rngs config io (Z.to_nat (numberOfRounds config)) 1 [] Hio)
    as Ht.
  destruct (rounds_loop rngs config io (Z.to_nat (numberOfRounds config)) 1 [])
    as [ps|e] eqn:Hl; [|discriminate].
  apply rounds_loop_spec in Hl as (blocks & Hps & Hbl & Hb).
  simpl in Hps. subst ps.
  exists (concat blocks), blocks. split; [done|]. split; [done|]. split; [lia|].
  split; [|split].
  - intros k b Hk. destruct (Hb k b Hk) as (H1 & H2 & _). split; [lia|].
    eapply Forall_impl; [exact H2|]. intros p ->. lia.
  - rewrite (length_concat_uniform blocks (length io))
      by (intros k b Hk; apply (Hb k b Hk)).
    rewrite Hbl, Hlen. lia.
  - intros r. rewrite (count_round_blocks blocks 1 (length io) r).
    2: { intros k b Hk. destruct (Hb k b Hk) as (H1 & H2 & _). done. }
    rewrite Hbl, Hlen.
    destruct (Z.leb_spec 1 r), (Z.ltb_spec r (1 + Z.of_nat (Z.to_nat (numberOfRounds config)))),
      (Z.leb_spec r (numberOfRounds config)); simpl; lia.
Qed.

Lemma runCompleteLottery_round_blocks_witness :
  exists ps, runCompleteLottery sampleRngs defaultConfig sampleOrder = Ok ps /\
    Z.of_nat (length ps) = 50.
Proof.
  destruct (runCompleteLottery_round_blocks sampleRngs defaultConfig sampleOrder)
    as (ps & blocks & H1 & _ & _ & _ & H5 & _).
  - apply (bool_decide_unpack _). vm_compute. exact I.
  - simpl. lia.
  - simpl. lia.
  - simpl. lia.
  - exists ps. split; [exact H1|]. rewrite H5. reflexivity.
Defined.

(** * Further properties of [database.ts] *)

(** ** The [Database] class *)

Lemma bind_read {A} (k : DatabaseSchema -> DB A) fs :
  (Database.read ≫= k) fs = k (stored fs) (Some (stored fs)).
Proof. by destruct fs. Qed.

Lemma bind_write {A} data (k : unit -> DB A) fs :
  (Database.write data ≫= k) fs = k tt (Some data).
Proof. reflexivity. Qed.

Lemma bind_ret {A B} (a : A) (k : A -> DB B) fs : (mret a ≫= k) fs = k a fs.
Proof. reflexivity. Qed.

Lemma bind_assoc {A B C} (m : DB A) (f : A -> DB B) (g : B -> DB C) fs :
  ((m ≫= f) ≫= g) fs = (m ≫= (fun x => f x ≫= g)) fs.
Proof. cbv [mbind DB_bind]. by destruct (m fs) as [[a fs']|e]. Qed.

Lemma read_stored fs : Database.read fs = Ok (stored fs, Some (stored fs)).
Proof. by destruct fs. Qed.

Lemma saveLottery_file lottery fs :
  Database.saveLottery lottery fs =
  Ok (tt, Some (DatabaseSchema.mk (DatabaseSchema.config (stored fs))
    (List.filter (fun l => negb (DraftLottery.year l =? DraftLottery.year lottery))
                 (DatabaseSchema.lotteries (stored fs)) ++ [lottery]))).
Proof. unfold Database.saveLottery. rewrite <- (app_nil_r [lottery]). by destruct fs. Qed.

Lemma deleteLottery_file year fs :
  Database.deleteLottery year fs =
  Ok (tt, Some (DatabaseSchema.mk (DatabaseSchema.config (stored fs))
    (List.filter (fun l => negb (DraftLottery.year l =? year))
                 (DatabaseSchema.lotteries (stored fs))))).
Proof. by destruct fs. Qed.

Lemma updateConfig_file config fs :
  Database.updateConfig config fs =
  Ok (tt, Some (DatabaseSchema.mk config (DatabaseSchema.lotteries (stored fs)))).
Proof. by destruct fs. Qed.

Lemma getLotteryByYear_file year fs :
  Database.getLotteryByYear year fs =
  Ok (List.find (fun lottery => DraftLottery.year lottery =? year)
                (DatabaseSchema.lotteries (stored fs)), Some (stored fs)).
Proof. by destruct fs. Qed.

Lemma getConfig_file fs :
  Database.getConfig fs = Ok (DatabaseSchema.config (stored fs), Some (stored fs)).
Proof. by destruct fs. Qed.

Lemma getAllLotteries_file fs :
  Database.getAllLotteries fs =
  Ok (sort_by Database.by_year_desc (DatabaseSchema.lotteries (stored fs)), Some (stored fs)).
Proof. by destruct fs. Qed.

(** Running [m] then [k] from [fs]. *)
Lemma then_Ok {A B} (m : DB A) (k : A -> DB B) fs a fs' :
  m fs = Ok (a, fs') -> (m ≫= k) fs = k a fs'.
Proof. intros H. cbv [mbind DB_bind]. by rewrite H. Qed.

Lemma find_app {A} (f : A -> bool) l1 l2 :
  List.find f (l1 ++ l2) =
  match List.find f l1 with Some x => Some x | None => List.find f l2 end.
Proof. induction l1 as [|x l1 IH]; simpl; [done|]. by destruct (f x). Qed.

Lemma find_filter_weaker {A} (f g : A -> bool) l :
  (forall x, f x = true -> g x = true) -> List.find f (List.filter g l) = List.find f l.
Proof.
  intros H. induction l as [|x l IH]; simpl; [done|].
  destruct (g x) eqn:Hg; simpl.
  - by destruct (f x).
  - destruct (f x) eqn:Hf; [|done]. rewrite (H x Hf) in Hg. discriminate.
Qed.

Lemma find_filter_disjoint {A} (f g : A -> bool) l :
  (forall x, f x = true -> g x = false) -> List.find f (List.filter g l) = None.
Proof.
  intros H. induction l as [|x l IH]; simpl; [done|].
  destruct (g x) eqn:Hg; simpl; [|done].
  destruct (f x) eqn:Hf; [|done]. rewrite (H x Hf) in Hg. discriminate.
Qed.

Lemma filter_true {A} (g : A -> bool) l :
  Forall (fun x => g x = true) l -> List.filter g l = l.
Proof. induction 1 as [|x l Hx _ IH]; simpl; [done|]. by rewrite Hx, IH. Qed.

Lemma filter_idem {A} (g : A -> bool) l :
  List.filter g (List.filter g l) = List.filter g l.
Proof.
  induction l as [|x l IH]; simpl; [done|].
  destruct (g x) eqn:Hg; simpl; [by rewrite Hg, IH|done].
Qed.

Lemma NoDup_map_filter {A B} (f : A -> B) (g : A -> bool) l :
  NoDup (map f l) -> NoDup (map f (List.filter g l)).
Proof.
  induction l as [|x l IH]; simpl; intros H; [constructor|].
  apply NoDup_cons in H as [Hx Hl].
  destruct (g x); simpl; [|by apply IH].
  constructor; [|by apply IH].
  intros Hin. apply Hx. apply list_elem_of_In in Hin. apply list_elem_of_In.
  apply in_map_iff in Hin as (y & <- & Hy). apply filter_In in Hy as [Hy _].
  by apply in_map.
Qed.

(** The stable insertion sort keeps the relative order of elements that a
    boolean test [f] singles out, when [le] puts each such element before
    any other one. *)
Lemma filter_insert_by {A} (le : A -> A -> bool) (f : A -> bool) x l :
  (forall z, f x = true -> f z = true -> le x z = true) ->
  List.filter f (insert_by le x l) =
  if f x then x :: List.filter f l else List.filter f l.
Proof.
  intros H. induction l as [|y l IH]; simpl; [by destruct (f x)|].
  destruct (le x y) eqn:Hxy; simpl; [by destruct (f x)|].
  rewrite IH. destruct (f x) eqn:Hfx, (f y) eqn:Hfy; try done.
  rewrite (H y eq_refl Hfy) in Hxy. discriminate.
Qed.

Lemma filter_sort_by {A} (le : A -> A -> bool) (f : A -> bool) l :
  (forall x z, f x = true -> f z = true -> le x z = true) ->
  List.filter f (sort_by le l) = List.filter f l.
Proof.
  intros H. induction l as [|x l IH]; simpl; [done|].
  rewrite filter_insert_by by auto. by rewrite IH.
Qed.

Lemma Sorted_weaken {A} (R R' : A -> A -> Prop) l :
  (forall a b, R a b -> R' a b) -> Sorted R l -> Sorted R' l.
Proof.
  intros H. induction 1 as [|x l _ IH Hhd]; constructor; [done|].
  destruct Hhd; constructor. by apply H.
Qed.

(** X1: after [saveLottery lottery], [getLotteryByYear y] finds [lottery]
    when [y] is its year, and otherwise what it found before the save. *)
Theorem saveLottery_getLotteryByYear lottery y fs :
  result_of (_ ← Database.saveLottery lottery; Database.getLotteryByYear y) fs =
  if y =? DraftLottery.year lottery then Ok (Some lottery)
  else result_of (Database.getLotteryByYear y) fs.
Proof.
  unfold result_of. rewrite (then_Ok _ _ _ _ _ (saveLottery_file lottery fs)).
  rewrite !getLotteryByYear_file. simpl. rewrite find_app.
  destruct (Z.eqb_spec y (DraftLottery.year lottery)) as [->|Hne].
  - rewrite find_filter_disjoint; [simpl; by rewrite Z.eqb_refl|].
    intros x Hx. apply Z.eqb_eq in Hx. rewrite Hx, Z.eqb_refl. done.
  - rewrite find_filter_weaker.
    + destruct (List.find _ _); [done|]. simpl.
      destruct (Z.eqb_spec (DraftLottery.year lottery) y); [congruence|done].
    + intros x Hx. apply Z.eqb_eq in Hx. rewrite Hx.
      apply negb_true_iff, Z.eqb_neq. congruence.
Qed.

(** X2: after [deleteLottery year], [getLotteryByYear y] finds nothing when
    [y = year], and otherwise what it found before the deletion. *)
Theorem deleteLottery_getLotteryByYear year y fs :
  result_of (_ ← Database.deleteLottery year; Database.getLotteryByYear y) fs =
  if y =? year then Ok None else result_of (Database.getLotteryByYear y) fs.
Proof.
  unfold result_of. rewrite (then_Ok _ _ _ _ _ (deleteLottery_file year fs)).
  rewrite !getLotteryByYear_file. simpl.
  destruct (Z.eqb_spec y year) as [->|Hne].
  - rewrite find_filter_disjoint; [done|].
    intros x Hx. apply Z.eqb_eq in Hx. rewrite Hx, Z.eqb_refl. done.
  - rewrite find_filter_weaker; [done|].
    intros x Hx. apply Z.eqb_eq in Hx. rewrite Hx.
    apply negb_true_iff, Z.eqb_neq. congruence.
Qed.

(** X3: [saveLottery] and [deleteLottery] keep the stored lotteries at
    most one per year. *)
Theorem save_delete_keep_years_unique fs :
  years_unique fs ->
  (forall lottery, exists fs', Database.saveLottery lottery fs = Ok (tt, fs') /\
                               years_unique fs') /\
  (forall year, exists fs', Database.deleteLottery year fs = Ok (tt, fs') /\
                            years_unique fs').
Proof.
  intros H.
  assert (Hs : NoDup (map DraftLottery.year (DatabaseSchema.lotteries (stored fs))))
    by (destruct fs; [done|constructor]).
  split.
  - intros lottery. eexists. split; [apply saveLottery_file|]. simpl.
    rewrite map_app. apply NoDup_app. split; [by apply NoDup_map_filter|].
    split; [|simpl; apply NoDup_singleton].
    intros y Hy Hin. apply list_elem_of_singleton in Hin. subst y.
    apply list_elem_of_In, in_map_iff in Hy as (x & Hxy & Hx).
    apply filter_In in Hx as [_ Hx].
    rewrite Hxy, Z.eqb_refl in Hx. discriminate.
  - intros year. eexists. split; [apply deleteLottery_file|]. simpl.
    by apply NoDup_map_filter.
Qed.

Lemma save_delete_keep_years_unique_witness :
  years_unique (Some sampleDatabase) /\
  (exists fs', Database.saveLottery lottery2024 (Some sampleDatabase) = Ok (tt, fs') /\
               years_unique fs').
Proof.
  assert (H : years_unique (Some sampleDatabase)).
  { apply (bool_decide_unpack _). vm_compute. exact I. }
  split; [exact H|].
  apply (proj1 (save_delete_keep_years_unique (Some sampleDatabase) H)).
Defined.

(** X4: deleting a year for which no lottery is stored leaves an existing
    database file as it is. *)
Theorem deleteLottery_absent_year db year :
  Forall (fun l => DraftLottery.year l <> year) (DatabaseSchema.lotteries db) ->
  Database.deleteLottery year (Some db) = Ok (tt, Some db).
Proof.
  intros H. rewrite deleteLottery_file. simpl. rewrite filter_true; [by destruct db|].
  eapply Forall_impl; [exact H|]. intros l Hl. by apply negb_true_iff, Z.eqb_neq.
Qed.

Lemma deleteLottery_absent_year_witness :
  Forall (fun l => DraftLottery.year l <> 2099) (DatabaseSchema.lotteries sampleDatabase) /\
  Database.deleteLottery 2099 (Some sampleDatabase) = Ok (tt, Some sampleDatabase).
Proof.
  assert (H : Forall (fun l => DraftLottery.year l <> 2099)
                     (DatabaseSchema.lotteries sampleDatabase)).
  { repeat constructor; simpl; lia. }
  split; [exact H|]. apply (deleteLottery_absent_year sampleDatabase 2099 H).
Defined.

(** X5: [getAllLotteries] returns the stored lotteries, by year from the
    most recent, lotteries of the same year in their stored order; it does
    not change an existing file, and creates the default one when there is
    none. *)
Theorem getAllLotteries_sorted fs :
  exists ls, Database.getAllLotteries fs = Ok (ls, Some (stored fs)) /\
    ls ≡ₚ DatabaseSchema.lotteries (stored fs) /\
    Sorted (fun a b => DraftLottery.year b <= DraftLottery.year a) ls /\
    (forall y, List.filter (fun l => DraftLottery.year l =? y) ls =
               List.filter (fun l => DraftLottery.year l =? y)
                           (DatabaseSchema.lotteries (stored fs))).
Proof.
  eexists. split; [apply getAllLotteries_file|].
  split; [apply sort_by_perm|]. split.
  - eapply Sorted_weaken; [|apply sort_by_sorted].
    + intros a b H. by apply Z.leb_le in H.
    + intros a b H. unfold Database.by_year_desc in *.
      apply Z.leb_gt in H. apply Z.leb_le. lia.
  - intros y. apply filter_sort_by.
    intros x z Hx Hz. apply Z.eqb_eq in Hx, Hz. unfold Database.by_year_desc.
    apply Z.leb_le. lia.
Qed.

(** X6: the reading methods and [initialize] never change an existing
    database file; on a missing file they write [defaultDatabase] and answer
    from it. *)
Theorem reads_keep_file fs :
  Database.initialize fs = Ok (tt, Some (stored fs)) /\
  Database.getConfig fs = Ok (DatabaseSchema.config (stored fs), Some (stored fs)) /\
  (forall y, Database.getLotteryByYear y fs =
     Ok (List.find (fun l => DraftLottery.year l =? y)
                   (DatabaseSchema.lotteries (stored fs)), Some (stored fs))) /\
  (forall ls fs', Database.getAllLotteries fs = Ok (ls, fs') -> fs' = Some (stored fs)).
Proof.
  split; [by destruct fs|]. split; [apply getConfig_file|].
  split; [intros y; apply getLotteryByYear_file|].
  intros ls fs' H. rewrite getAllLotteries_file in H. by injection H.
Qed.

Lemma reads_keep_file_witness :
  Database.getAllLotteries None = Ok ([], Some defaultDatabase) /\
  (forall ls fs', Database.getAllLotteries None = Ok (ls, fs') -> fs' = Some defaultDatabase).
Proof.
  split; [reflexivity|]. apply (proj2 (proj2 (proj2 (reads_keep_file None)))).
Defined.

(** X7: after [updateConfig config], [getConfig] returns [config], and
    [getAllLotteries] returns what it returned before. *)
Theorem updateConfig_getConfig config fs :
  result_of (_ ← Database.updateConfig config; Database.getConfig) fs = Ok config /\
  result_of (_ ← Database.updateConfig config; Database.getAllLotteries) fs =
  result_of Database.getAllLotteries fs.
Proof.
  unfold result_of. rewrite !(then_Ok _ _ _ _ _ (updateConfig_file config fs)).
  rewrite getConfig_file, !getAllLotteries_file. done.
Qed.

(** X8: [saveLottery] and [deleteLottery] leave the stored configuration as
    it was. *)
Theorem save_delete_keep_config lottery year fs :
  result_of (_ ← Database.saveLottery lottery; Database.getConfig) fs =
  result_of Database.getConfig fs /\
  result_of (_ ← Database.deleteLottery year; Database.getConfig) fs =
  result_of Database.getConfig fs.
Proof.
  unfold result_of. rewrite (then_Ok _ _ _ _ _ (saveLottery_file lottery fs)).
  rewrite (then_Ok _ _ _ _ _ (deleteLottery_file year fs)).
  rewrite !getConfig_file. done.
Qed.

(** X9: saving a lottery and then deleting its year leaves the same file
    as deleting the year alone; saving two lotteries of the same year leaves
    the same file as saving the second alone. *)
Theorem saveLottery_overwrites lottery lottery' fs :
  (_ ← Database.saveLottery lottery; Database.deleteLottery (DraftLottery.year lottery)) fs =
  Database.deleteLottery (DraftLottery.year lottery) fs /\
  (DraftLottery.year lottery = DraftLottery.year lottery' ->
   (_ ← Database.saveLottery lottery; Database.saveLottery lottery') fs =
   Database.saveLottery lottery' fs).
Proof.
  split.
  - rewrite (then_Ok _ _ _ _ _ (saveLottery_file lottery fs)).
    rewrite !deleteLottery_file. simpl. rewrite List.filter_app, filter_idem. simpl.
    by rewrite Z.eqb_refl, app_nil_r.
  - intros Hy. rewrite (then_Ok _ _ _ _ _ (saveLottery_file lottery fs)).
    rewrite !saveLottery_file. simpl. rewrite <- Hy, List.filter_app, filter_idem. simpl.
    by rewrite Z.eqb_refl, app_nil_r.
Qed.

Lemma saveLottery_overwrites_witness :
  DraftLottery.year lottery2024 = DraftLottery.year (DraftLottery.mk "redo-2024" 2024 "2024-09-01" [] defaultConfig) /\
  (_ ← Database.saveLottery lottery2024;
   Database.saveLottery (DraftLottery.mk "redo-2024" 2024 "2024-09-01" [] defaultConfig))
    (Some sampleDatabase) =
  Database.saveLottery (DraftLottery.mk "redo-2024" 2024 "2024-09-01" [] defaultConfig)
    (Some sampleDatabase).
Proof.
  split; [reflexivity|].
  apply (proj2 (saveLottery_overwrites lottery2024
    (DraftLottery.mk "redo-2024" 2024 "2024-09-01" [] defaultConfig) (Some sampleDatabase))).
  reflexivity.
Defined.

(** ** Lottery functions *)

Lemma filter_nil_Forall {A} (f : A -> bool) l :
  List.filter f l = [] <-> Forall (fun x => f x = false) l.
Proof.
  induction l as [|x l IH]; simpl; [split; [constructor|done]|].
  destruct (f x) eqn:Hf; split; intros H.
  - discriminate.
  - apply Forall_cons in H as [H _]. congruence.
  - constructor; [done|]. by apply IH.
  - apply Forall_cons in H as [_ H]. by apply IH.
Qed.

Lemma validate_errors_length picks :
  length (errors (validateDraftResults picks)) =
  length (List.filter (fun p => 2 <? Z.abs (movement p)) picks).
Proof.
  unfold validateDraftResults, MAX_MOVEMENT. cbn [errors].
  induction picks as [|p ps IH]; [done|]. cbn [foldr List.filter].
  destruct (2 <? Z.abs (movement p)); cbn [length]; by rewrite IH.
Qed.

(** X10: [validateDraftResults] reports valid exactly when every pick has
    [|movement| <= 2], with one error message per pick that moves more. *)
Theorem validateDraftResults_spec picks :
  (valid (validateDraftResults picks) = true <->
   Forall (fun p => Z.abs (movement p) <= 2) picks) /\
  length (errors (validateDraftResults picks)) =
  length (List.filter (fun p => 2 <? Z.abs (movement p)) picks).
Proof.
  split; [|apply validate_errors_length].
  change (valid (validateDraftResults picks)) with
    (bool_decide (errors (validateDraftResults picks) = [])).
  rewrite bool_decide_eq_true, <- length_zero_iff_nil, validate_errors_length,
    length_zero_iff_nil, filter_nil_Forall.
  apply Forall_iff. intros p. rewrite Z.ltb_ge. done.
Qed.

(** X11: for a position [p] in [1..N], the window of [getValidPositionRange]
    lies inside [1..N], contains [p] itself and spans at most five
    positions. *)
Theorem getValidPositionRange_window p N :
  1 <= p <= N ->
  1 <= min (getValidPositionRange p N) <= p /\
  p <= max (getValidPositionRange p N) <= N /\
  max (getValidPositionRange p N) - min (getValidPositionRange p N) <= 4.
Proof. intros H. unfold getValidPositionRange, MAX_MOVEMENT. simpl. lia. Qed.

Lemma getValidPositionRange_window_witness :
  1 <= 10 <= 10 /\
  1 <= min (getValidPositionRange 10 10) <= 10 /\
  10 <= max (getValidPositionRange 10 10) <= 10 /\
  max (getValidPositionRange 10 10) - min (getValidPositionRange 10 10) <= 4.
Proof. split; [lia|]. apply getValidPositionRange_window. lia. Defined.

Lemma wrs_draw_index avail ws o rand i x j :
  weightedRandomSelection avail ws o rand i = Ok (x, j) -> j = i \/ j = S i.
Proof.
  unfold weightedRandomSelection. fold (wrs_candidates avail ws o). cbv zeta.
  destruct (wrs_candidates avail ws o) as [|p0 [|p1 rest]];
    [discriminate| intros H; injection H; intros; subst; by left|].
  destruct (List.find _ ws) as [teamOdds|]; [|discriminate].
  destruct (walk _ _ _); intros H; injection H; intros; subst; by right.
Qed.

(** X12: a position returned by [weightedRandomSelection] is one of the
    available positions, at most two away from the original position and in
    [1..weightedSystem.length]; the call uses at most one random draw. *)
Theorem wrs_result_spec avail ws o rand i x j :
  weightedRandomSelection avail ws o rand i = Ok (x, j) ->
  In x avail /\ Z.abs (x - o) <= 2 /\ 1 <= x <= Z.of_nat (length ws) /\
  (j = i \/ j = S i).
Proof.
  intros H. pose proof (wrs_draw_index _ _ _ _ _ _ _ H) as Hj.
  apply wrs_result_in_candidates, in_wrs_candidates in H as [Hin Hb].
  split; [done|]. split; [lia|]. split; [lia|done].
Qed.

Lemma wrs_result_spec_witness :
  weightedRandomSelection [1; 2; 3] [mkOdds 3 50; mkOdds 2 20] 3 (fun _ => 0%Q) 0
    = Ok (1, 1%nat) /\
  (In 1 [1; 2; 3] /\ Z.abs (1 - 3) <= 2 /\ 1 <= 1 <= Z.of_nat 2 /\
   (1%nat = 0%nat \/ 1%nat = 1%nat)).
Proof.
  assert (H : weightedRandomSelection [1; 2; 3] [mkOdds 3 50; mkOdds 2 20] 3
                (fun _ => 0%Q) 0 = Ok (1, 1%nat)) by (vm_compute; reflexivity).
  split; [exact H|]. apply (wrs_result_spec _ _ _ _ _ _ _ H).
Defined.

Lemma mapR_cons {A B} (f : A -> result B) x l :
  mapR f (x :: l) = (y ← f x; ys ← mapR f l; Ok (y :: ys)).
Proof. reflexivity. Qed.

Lemma mapR_throw {A B} (f : A -> result B) l e :
  mapR f l = Throw e -> exists x, In x l /\ f x = Throw e.
Proof.
  induction l as [|x l IH]; intros H; [discriminate|]. rewrite mapR_cons in H.
  destruct (f x) as [y|e'] eqn:Hf.
  - rewrite bind_Ok in H. destruct (mapR f l) as [ys|e''].
    + rewrite bind_Ok in H. discriminate.
    + rewrite bind_Throw in H. injection H as <-.
      destruct (IH eq_refl) as (z & Hz & Hfz). exists z. split; [by right|done].
  - rewrite bind_Throw in H. injection H as <-. exists x. split; [by left|done].
Qed.

Lemma runLotteryRound_throw_msg rng config r io e :
  runLotteryRound rng config r io = Throw e ->
  e = "TypeError: Cannot read properties of undefined (reading 'id')".
Proof.
  unfold runLotteryRound.
  destruct (attempt_loop config r io rng MAX_ATTEMPTS 0); [intros H; discriminate H|].
  unfold fallback_picks.
  destruct (mapR _ io) as [ps|e'] eqn:Hm;
    [rewrite bind_Ok; intros H; discriminate H|rewrite bind_Throw; intros H; injection H as <-].
  apply mapR_throw in Hm as (o & _ & Ho).
  destruct (teamIdOf config o) as [tid|e''] eqn:Ht;
    [rewrite bind_Ok in Ho; discriminate Ho|rewrite bind_Throw in Ho; injection Ho as <-].
  unfold teamIdOf in Ht. cbv zeta in Ht.
  destruct (o - 1 <? 0); [by injection Ht|].
  destruct (teams config !! Z.to_nat (o - 1)); [discriminate Ht|by injection Ht].
Qed.

(** X13: [runLotteryRound] throws exactly when an entry of the initial order
    names no team record, and the error is then the [TypeError] of
    [config.teams[o - 1].id]: the errors of the attempts never escape. *)
Theorem runLotteryRound_throws_iff rng config r io :
  (is_ok (runLotteryRound rng config r io) = false <->
   exists o, In o io /\ ~ (1 <= o <= Z.of_nat (length (teams config)))) /\
  (forall e, runLotteryRound rng config r io = Throw e ->
   e = "TypeError: Cannot read properties of undefined (reading 'id')").
Proof.
  split; [split|].
  - intros Hf.
    destruct (decide (Forall (fun o => 1 <= o <= Z.of_nat (length (teams config))) io))
      as [Hall|Hn].
    + assert (Hio : forall o, In o io -> 1 <= o <= Z.of_nat (length (teams config))).
      { intros o Ho. rewrite Forall_forall in Hall. apply Hall, list_elem_of_In, Ho. }
      destruct (runLotteryRound_ok rng config r io Hio) as [ps Hps].
      rewrite Hps in Hf. discriminate.
    + apply not_Forall_Exists in Hn; [|apply _].
      apply List.Exists_exists in Hn as (o & Ho & Hbad). by exists o.
  - intros (o & Hin & Hbad). by apply (runLotteryRound_fail rng config r io o).
  - intros e. apply runLotteryRound_throw_msg.
Qed.

Lemma runLotteryRound_throws_iff_witness :
  is_ok (runLotteryRound sampleRng defaultConfig 1 badOrder) = false.
Proof.
  apply (proj2 (proj1 (runLotteryRound_throws_iff sampleRng defaultConfig 1 badOrder))).
  exists 11. split; [simpl; tauto|simpl; lia].
Defined.

Lemma place_all_teamIds config r rand ts st st' :
  place_all config r rand st ts = Ok st' ->
  Forall (fun t => teamIdOf config t.1 = Ok t.2) ts ->
  Forall (fun p => teamIdOf config (originalPosition p) = Ok (teamId p)) (picks st) ->
  Forall (fun p => teamIdOf config (originalPosition p) = Ok (teamId p)) (picks st').
Proof.
  revert st. induction ts as [|t ts IH]; simpl; intros st H Hts Hp.
  - injection H as <-. done.
  - destruct (place_team config r rand st t) as [st1|e] eqn:Ht; [|discriminate].
    simpl in H. apply Forall_cons in Hts as [Ht0 Hts]. apply (IH st1 H Hts).
    apply place_team_step in Ht as (x & _ & _ & _ & ->).
    apply Forall_app; split; [done|]. constructor; [exact Ht0|constructor].
Qed.

Lemma run_attempt_teamIds config r io ar ps :
  run_attempt config r io ar = Ok (Some ps) ->
  Forall (fun p => teamIdOf config (originalPosition p) = Ok (teamId p)) ps.
Proof.
  unfold run_attempt.
  destruct (mapR _ io) as [tms|e] eqn:Hm; [|discriminate]. simpl.
  destruct (place_all _ _ _ _ _) as [st|e] eqn:Hpl; [|discriminate]. simpl.
  destruct (forallb _ _); [|discriminate].
  intros H. injection H as <-.
  rewrite (sort_picks_perm (picks st)).
  eapply place_all_teamIds; [exact Hpl| |constructor].
  rewrite (shuffle_perm (shuffle_key ar) tms).
  apply mapR_ok in Hm. clear -Hm.
  induction Hm as [|o t io tms Hot _ IH]; constructor; [|done].
  destruct (teamIdOf config o) as [tid|e] eqn:Ht; [|discriminate].
  simpl in Hot. injection Hot as <-. exact Ht.
Qed.

(** X14: the picks returned by [runLotteryRound] hold one pick per entry of
    the initial order, all of the given round, each with the id of the team
    record at its original position, sorted by pick number. *)
Theorem runLotteryRound_picks rng config r io ps :
  runLotteryRound rng config r io = Ok ps ->
  map originalPosition ps ≡ₚ io /\
  Forall (fun p => round p = r /\
                   teamIdOf config (originalPosition p) = Ok (teamId p)) ps /\
  Sorted Z.le (map pickNumber ps).
Proof.
  intros H. apply runLotteryRound_cases in H as [[k Hk]|Hf].
  - pose proof (run_attempt_teamIds _ _ _ _ _ Hk) as Ht.
    apply run_attempt_some in Hk as (_ & _ & _ & Ho & Hr & Hs).
    split; [done|]. split; [|done]. apply Forall_and; by split.
  - apply fallback_picks_ok in Hf as (Ho & Hall & Hs).
    split; [done|]. split; [|done].
    eapply Forall_impl; [exact Hall|]. intros p (_ & _ & H1 & H2). done.
Qed.

Lemma runLotteryRound_picks_witness :
  map originalPosition
    (match runLotteryRound sampleRng defaultConfig 1 sampleOrder with
     | Ok ps => ps | Throw _ => [] end) ≡ₚ sampleOrder.
Proof.
  apply (runLotteryRound_picks sampleRng defaultConfig 1 sampleOrder).
  vm_compute. reflexivity.
Defined.

(** X15: when the initial order has no repeated entry and all its entries
    lie in [1..numberOfTeams], the pick numbers returned by
    [runLotteryRound] are distinct and lie in [1..numberOfTeams], also when
    the order does not name every position. *)
Theorem runLotteryRound_distinct_picks rng config r io ps :
  NoDup io ->
  (forall o, In o io -> 1 <= o <= numberOfTeams config) ->
  runLotteryRound rng config r io = Ok ps ->
  NoDup (map pickNumber ps) /\
  (forall x, x ∈ map pickNumber ps -> 1 <= x <= numberOfTeams config).
Proof.
  intros Hnd Hio H. apply runLotteryRound_cases in H as [[k Hk]|Hf].
  - apply run_attempt_some in Hk as (_ & Hnd' & Hin & _). done.
  - apply fallback_picks_ok in Hf as (Ho & Hall & _).
    assert (Hpo : map pickNumber ps = map originalPosition ps).
    { clear -Hall. induction Hall as [|p ps [Hpn _] _ IH]; simpl; congruence. }
    rewrite Hpo, Ho. split; [done|].
    intros x Hx. rewrite Ho in Hx. apply Hio, list_elem_of_In, Hx.
Qed.

Lemma runLotteryRound_distinct_picks_witness :
  NoDup [3; 1; 2] /\
  NoDup (map pickNumber
    (match runLotteryRound sampleRng defaultConfig 1 [3; 1; 2] with
     | Ok ps => ps | Throw _ => [] end)).
Proof.
  assert (Hnd : NoDup [3; 1; 2]) by (apply (bool_decide_unpack _); vm_compute; exact I).
  split; [exact Hnd|].
  apply (runLotteryRound_distinct_picks sampleRng defaultConfig 1 [3; 1; 2]); [exact Hnd| |].
  - intros o Ho. simpl in Ho. simpl. destruct Ho as [<-|[<-|[<-|[]]]]; lia.
  - vm_compute. reflexivity.
Defined.

Lemma rounds_loop_mapR rngs config io n rnd acc :
  rounds_loop rngs config io n rnd acc =
  (blocks ← mapR (fun k => runLotteryRound (rngs k) config k io) (seqZ rnd (Z.of_nat n));
   Ok (acc ++ concat blocks)).
Proof.
  revert rnd acc. induction n as [|n IH]; intros rnd acc.
  - rewrite seqZ_nil by lia. simpl. by rewrite app_nil_r.
  - rewrite rounds_loop_S, seqZ_cons by lia.
    replace (Z.pred (Z.of_nat (S n))) with (Z.of_nat n) by lia. rewrite mapR_cons.
    destruct (runLotteryRound (rngs rnd) config rnd io) as [rp|e] eqn:Hr;
      [|by rewrite !bind_Throw].
    rewrite !bind_Ok. cbv beta zeta.
    apply runLotteryRound_shape in Hr as (_ & _ & Hmv & _).
    rewrite validate_ok by done. cbn [negb]. rewrite IH, <- Z.add_1_r.
    destruct (mapR (fun k => runLotteryRound (rngs k) config k io)
                   (seqZ (rnd + 1) (Z.of_nat n))) as [bs|e];
      [|by rewrite !bind_Throw].
    rewrite !bind_Ok. cbn [concat]. by rewrite app_assoc.
Qed.

Lemma seqZ_of_to_nat m n : seqZ m (Z.of_nat (Z.to_nat n)) = seqZ m n.
Proof.
  destruct (Z.le_gt_cases 0 n); [by rewrite Z2Nat.id|].
  rewrite !seqZ_nil by lia. done.
Qed.

(** X16: when the length check passes, [runCompleteLottery] is the
    concatenation of the results of [runLotteryRound] for the rounds
    [1..numberOfRounds], in order: its validation step never rejects a
    round. *)
Theorem runCompleteLottery_rounds rngs config io :
  Z.of_nat (length io) = numberOfTeams config ->
  runCompleteLottery rngs config io =
  (blocks ← mapR (fun r => runLotteryRound (rngs r) config r io)
                 (seqZ 1 (numberOfRounds config));
   Ok (concat blocks)).
Proof.
  intros H. rewrite runCompleteLottery_match by done.
  rewrite rounds_loop_mapR, seqZ_of_to_nat. reflexivity.
Qed.

Lemma runCompleteLottery_rounds_witness :
  Z.of_nat (length sampleOrder) = numberOfTeams defaultConfig /\
  runCompleteLottery sampleRngs defaultConfig sampleOrder =
  (blocks ← mapR (fun r => runLotteryRound (sampleRngs r) defaultConfig r sampleOrder)
                 (seqZ 1 (numberOfRounds defaultConfig));
   Ok (concat blocks)).
Proof.
  split; [reflexivity|]. apply runCompleteLottery_rounds. reflexivity.
Defined.

(** X17: the only errors [runCompleteLottery] throws are the length
    mismatch and the [TypeError] of a missing team record; it never throws
    its "Invalid lottery results" error. *)
Theorem runCompleteLottery_errors rngs config io e :
  runCompleteLottery rngs config io = Throw e ->
  e = length_mismatch_message (Z.of_nat (length io)) (numberOfTeams config) \/
  e = "TypeError: Cannot read properties of undefined (reading 'id')".
Proof.
  intros H.
  destruct (Z.eq_dec (Z.of_nat (length io)) (numberOfTeams config)) as [E|E].
  - right. rewrite runCompleteLottery_match, rounds_loop_mapR, seqZ_of_to_nat in H
      by done.
    destruct (mapR (fun k => runLotteryRound (rngs k) config k io)
                   (seqZ 1 (numberOfRounds config))) as [bs|e'] eqn:Hm.
    + rewrite bind_Ok in H. discriminate.
    + rewrite bind_Throw in H. injection H as <-.
      apply mapR_throw in Hm as (k & _ & Hk). by apply runLotteryRound_throw_msg in Hk.
  - left. rewrite runCompleteLottery_mismatch in H by done. by injection H.
Qed.

Lemma runCompleteLottery_errors_witness :
  runCompleteLottery sampleRngs defaultConfig badOrder =
    Throw "TypeError: Cannot read properties of undefined (reading 'id')" /\
  ("TypeError: Cannot read properties of undefined (reading 'id')" =
     length_mismatch_message (Z.of_nat (length badOrder)) (numberOfTeams defaultConfig) \/
   "TypeError: Cannot read properties of undefined (reading 'id')" =
     "TypeError: Cannot read properties of undefined (reading 'id')").
Proof.
  assert (H : runCompleteLottery sampleRngs defaultConfig badOrder =
    Throw "TypeError: Cannot read properties of undefined (reading 'id')")
    by (vm_compute; reflexivity).
  split; [exact H|]. apply (runCompleteLottery_errors _ _ _ _ H).
Defined.
